(** * ThreadSafeQueue.h: a lock-token-gated FIFO queue

    A shallow embedding of [ThreadSafeQueue<T>] (src/ThreadSafeQueue.h).
    Queue objects live in a store indexed by their address; every member
    function is a computation over that store which either returns, stops
    on a failed [ASSERT], or runs into undefined behaviour of the
    underlying [std::deque]. *)

From stdpp Require Import base option list gmap.

(** ** Build configuration

    [ASSERT] is [assert] from <cassert> unless the includer defines it
    first; the default is what is modelled. [assert] expands to nothing
    when [NDEBUG] is defined. The header is compiled in either mode, so
    the mode is a parameter of the model. *)

Class BuildConfig := { NDEBUG : bool }.

(** ** Addresses and the store *)

(** Objects are named by their address. *)
Definition Addr := N.

(** The address of the member [m_mutex] of the queue object at [this].
    Members of distinct objects are distinct, so the object's own address
    stands for it. *)
Definition m_mutex (this : Addr) : Addr := this.

(** [SuperQueue<T>] is [std::deque<T>]: an ordered sequence, front first. *)
Abbreviation SuperQueue T := (list T) (only parsing).

(** The live [ThreadSafeQueue<T>] objects and their element sequences. *)
Abbreviation Heap T := (gmap Addr (list T)) (only parsing).

(** ** Outcomes of a call *)

Inductive outcome (T A : Type) : Type :=
| Returned (a : A) (h : Heap T)   (* normal return, with the store after the call *)
| AssertionFailure                (* [assert] printed its message and called abort *)
| UndefinedBehaviour.             (* a precondition of std::deque was violated *)

Arguments Returned {T A} a h.
Arguments AssertionFailure {T A}.
Arguments UndefinedBehaviour {T A}.

Definition M (T A : Type) : Type := Heap T → outcome T A.

Definition M_ret {T A} (a : A) : M T A := λ h, Returned a h.

Definition M_bind {T A B} (f : A → M T B) (m : M T A) : M T B :=
  λ h, match m h with
       | Returned a h' => f a h'
       | AssertionFailure => AssertionFailure
       | UndefinedBehaviour => UndefinedBehaviour
       end.

#[global] Instance M_mret T : MRet (M T) := @M_ret T.
#[global] Instance M_mbind T : MBind (M T) := @M_bind T.

(** The store a call leaves behind, when it returns. *)
Definition heap_after {T A} (o : outcome T A) : option (Heap T) :=
  match o with Returned _ h => Some h | _ => None end.

(** The value a call returns, when it returns. *)
Definition value_of {T A} (o : outcome T A) : option A :=
  match o with Returned a _ => Some a | _ => None end.

(** ** std::shared_lock / std::unique_lock

    Only what the header uses: the lock's associated mutex ([mutex()],
    null when there is none) and whether it owns it. *)

Record ReadLock := mkReadLock {
  ReadLock_mutex : option Addr;
  ReadLock_owns_lock : bool
}.

Record WriteLock := mkWriteLock {
  WriteLock_mutex : option Addr;
  WriteLock_owns_lock : bool
}.

(** [lock.mutex()] *)
Class Lock (L : Type) := mutex : L → option Addr.
#[global] Instance ReadLock_Lock : Lock ReadLock := ReadLock_mutex.
#[global] Instance WriteLock_Lock : Lock WriteLock := WriteLock_mutex.

(** [ReadLock(m)] and [WriteLock(m)]: block until the mutex is available,
    then hold it. Blocking belongs to std::shared_mutex and is not
    represented; the value is the lock once the constructor has returned. *)
Definition ReadLock_ctor (m : Addr) : ReadLock := mkReadLock (Some m) true.
Definition WriteLock_ctor (m : Addr) : WriteLock := mkWriteLock (Some m) true.

(** A default-constructed lock: no associated mutex, nothing owned. *)
Definition ReadLock_default : ReadLock := mkReadLock None false.
Definition WriteLock_default : WriteLock := mkWriteLock None false.

(** [lock.unlock()]: gives the mutex up and stays associated with it;
    throws (here [None]) when the lock has no mutex or does not own it. *)
Definition ReadLock_unlock (lock : ReadLock) : option ReadLock :=
  match ReadLock_mutex lock with
  | Some m => if ReadLock_owns_lock lock then Some (mkReadLock (Some m) false) else None
  | None => None
  end.
Definition WriteLock_unlock (lock : WriteLock) : option WriteLock :=
  match WriteLock_mutex lock with
  | Some m => if WriteLock_owns_lock lock then Some (mkWriteLock (Some m) false) else None
  | None => None
  end.

(** [lock.release()]: breaks the association with the mutex without
    unlocking it; [mutex()] is null afterwards. *)
Definition ReadLock_release (lock : ReadLock) : ReadLock := mkReadLock None false.
Definition WriteLock_release (lock : WriteLock) : WriteLock := mkWriteLock None false.

(** ** std::deque, by its contract *)

Section Deque.
Context {T : Type}.

Definition deque_front (d : SuperQueue T) : option T := head d.
Definition deque_back (d : SuperQueue T) : option T := last d.
Definition deque_empty (d : SuperQueue T) : bool := bool_decide (length d = 0).
Definition deque_size (d : SuperQueue T) : nat := length d.
Definition deque_push_back (v : T) (d : SuperQueue T) : SuperQueue T := d ++ [v].
Definition deque_pop_front (d : SuperQueue T) : option (SuperQueue T) :=
  match d with [] => None | _ :: d' => Some d' end.

(** A const member of the base sub-object of [this]: [None] from [f] is a
    violated precondition. *)
Definition SuperQueue_read {A} (this : Addr) (f : SuperQueue T → option A) : M T A :=
  λ h, match h !! this with
       | Some d => match f d with
                   | Some a => Returned a h
                   | None => UndefinedBehaviour
                   end
       | None => UndefinedBehaviour
       end.

(** A mutating member of the base sub-object of [this]. *)
Definition SuperQueue_write (this : Addr) (f : SuperQueue T → option (SuperQueue T)) : M T unit :=
  λ h, match h !! this with
       | Some d => match f d with
                   | Some d' => Returned () (<[this := d']> h)
                   | None => UndefinedBehaviour
                   end
       | None => UndefinedBehaviour
       end.

Definition SuperQueue_front (this : Addr) : M T T := SuperQueue_read this deque_front.
Definition SuperQueue_back (this : Addr) : M T T := SuperQueue_read this deque_back.
Definition SuperQueue_empty (this : Addr) : M T bool :=
  SuperQueue_read this (λ d, Some (deque_empty d)).
Definition SuperQueue_size (this : Addr) : M T nat :=
  SuperQueue_read this (λ d, Some (deque_size d)).
Definition SuperQueue_push_back (this : Addr) (v : T) : M T unit :=
  SuperQueue_write this (λ d, Some (deque_push_back v d)).
Definition SuperQueue_pop_front (this : Addr) : M T unit :=
  SuperQueue_write this deque_pop_front.
End Deque.

(** ** ThreadSafeQueue<T> *)

Section ThreadSafeQueue.
Context {T : Type} `{BuildConfig}.

(** [ASSERT(c)]: nothing under NDEBUG, otherwise abort unless [c]. *)
Definition ASSERT (c : bool) : M T unit :=
  if NDEBUG then mret () else if c then mret () else λ _, AssertionFailure.

(** [is_valid_lock]: both overloads compare [lock.mutex()] with [&m_mutex]. *)
Definition is_valid_lock `{Lock L} (this : Addr) (lock : L) : bool :=
  bool_decide (mutex lock = Some (m_mutex this)).

(** *** read *)

Definition back_R (this : Addr) (lock : ReadLock) : M T T :=
  ASSERT (is_valid_lock this lock);; SuperQueue_back this.

Definition front_R (this : Addr) (lock : ReadLock) : M T T :=
  ASSERT (is_valid_lock this lock);; SuperQueue_front this.

Definition back_W (this : Addr) (lock : WriteLock) : M T T :=
  ASSERT (is_valid_lock this lock);; SuperQueue_back this.

Definition front_W (this : Addr) (lock : WriteLock) : M T T :=
  ASSERT (is_valid_lock this lock);; SuperQueue_front this.

Definition empty_R (this : Addr) (lock : ReadLock) : M T bool :=
  ASSERT (is_valid_lock this lock);; SuperQueue_empty this.

Definition empty_W (this : Addr) (lock : WriteLock) : M T bool :=
  ASSERT (is_valid_lock this lock);; SuperQueue_empty this.

Definition size_R (this : Addr) (lock : ReadLock) : M T nat :=
  ASSERT (is_valid_lock this lock);; SuperQueue_size this.

Definition size_W (this : Addr) (lock : WriteLock) : M T nat :=
  ASSERT (is_valid_lock this lock);; SuperQueue_size this.

(** *** write *)

(** Both [push] overloads ([const T&] and [T&&]) append the value. *)
Definition push (this : Addr) (value : T) (lock : WriteLock) : M T unit :=
  ASSERT (is_valid_lock this lock);; SuperQueue_push_back this value.

(** [pop] moves the front element out and then removes it; the moved-from
    element is destroyed by [pop_front] and is never seen again. *)
Definition pop (this : Addr) (lock : WriteLock) : M T T :=
  ASSERT (is_valid_lock this lock);;
  front ← SuperQueue_front this;
  SuperQueue_pop_front this;;
  mret front.

(** *** locks *)

Definition acquire_read_lock (this : Addr) : ReadLock := ReadLock_ctor (m_mutex this).
Definition acquire_write_lock (this : Addr) : WriteLock := WriteLock_ctor (m_mutex this).

(** *** iterators

    [ConstIterator] and [Iterator] are the deque's iterators: a position
    in the sequence of one queue. The two differ only in whether the
    element may be assigned through them. *)

Record Iterator := mkIterator {
  it_container : Addr;
  it_pos : nat
}.
Definition ConstIterator := Iterator.

Definition SuperQueue_begin (this : Addr) : M T Iterator :=
  SuperQueue_read this (λ _, Some (mkIterator this 0)).
Definition SuperQueue_end (this : Addr) : M T Iterator :=
  SuperQueue_read this (λ d, Some (mkIterator this (deque_size d))).
Definition SuperQueue_cbegin (this : Addr) : M T ConstIterator := SuperQueue_begin this.
Definition SuperQueue_cend (this : Addr) : M T ConstIterator := SuperQueue_end this.

(** [it != e] *)
Definition Iterator_ne (it e : Iterator) : bool :=
  negb (bool_decide (it_container it = it_container e ∧ it_pos it = it_pos e)).

(** [*it]: only a position before the end may be dereferenced. *)
Definition Iterator_deref (it : Iterator) : M T T :=
  SuperQueue_read (it_container it) (λ d, d !! it_pos it).

(** [++it] *)
Definition Iterator_incr (it : Iterator) : Iterator :=
  mkIterator (it_container it) (S (it_pos it)).

(** [it + n] *)
Definition Iterator_advance (it : Iterator) (n : nat) : Iterator :=
  mkIterator (it_container it) (it_pos it + n).

(** [*it = value] through a mutable [Iterator]: only a position before the
    end may be assigned. *)
Definition Iterator_assign (it : Iterator) (value : T) : M T unit :=
  SuperQueue_write (it_container it)
    (λ d, if decide (it_pos it < deque_size d) then Some (<[it_pos it := value]> d)
          else None).

(** *** views

    [m_queue] and [m_lock] are references: the view records which queue
    and which lock it was built from, and reads the queue through the
    store whenever [begin] or [end] is called. *)

Record IterableView := mkIterableView {
  IterableView_m_queue : Addr;
  IterableView_m_lock : ReadLock
}.

Definition IterableView_ctor (queue : Addr) (lock : ReadLock) : M T IterableView :=
  ASSERT (is_valid_lock queue lock);; mret (mkIterableView queue lock).

Definition IterableView_begin (v : IterableView) : M T ConstIterator :=
  SuperQueue_cbegin (IterableView_m_queue v).
Definition IterableView_end (v : IterableView) : M T ConstIterator :=
  SuperQueue_cend (IterableView_m_queue v).

Record IterableWriteView := mkIterableWriteView {
  IterableWriteView_m_queue : Addr;
  IterableWriteView_m_lock : WriteLock
}.

Definition IterableWriteView_ctor (queue : Addr) (lock : WriteLock) : M T IterableWriteView :=
  ASSERT (is_valid_lock queue lock);; mret (mkIterableWriteView queue lock).

Definition IterableWriteView_cbegin (v : IterableWriteView) : M T ConstIterator :=
  SuperQueue_cbegin (IterableWriteView_m_queue v).
Definition IterableWriteView_cend (v : IterableWriteView) : M T ConstIterator :=
  SuperQueue_cend (IterableWriteView_m_queue v).
Definition IterableWriteView_begin (v : IterableWriteView) : M T Iterator :=
  SuperQueue_begin (IterableWriteView_m_queue v).
Definition IterableWriteView_end (v : IterableWriteView) : M T Iterator :=
  SuperQueue_end (IterableWriteView_m_queue v).

(** [acquire_iterable_write_view] is a non-const member, so [*this] is a
    non-const lvalue and binds to the constructor's [ThreadSafeQueue&]. *)
Definition acquire_iterable_write_view (this : Addr) (lock : WriteLock) : M T IterableWriteView :=
  ASSERT (is_valid_lock this lock);; IterableWriteView_ctor this lock.

(** *** overload resolution

    What a call site may pass where the header asks for a lock: an
    lvalue of one of the two lock types. [resolution] says which
    declared overload a call selects, if any; a call with no viable
    overload does not compile. *)

Inductive Token :=
| ReadToken (lock : ReadLock)
| WriteToken (lock : WriteLock).

Inductive resolution (A : Type) :=
| NoViableOverload
| Selected (body : A).
#[global] Arguments NoViableOverload {A}.
#[global] Arguments Selected {A} body.

Definition call_front (this : Addr) (t : Token) : resolution (M T T) :=
  match t with
  | ReadToken lock => Selected (front_R this lock)
  | WriteToken lock => Selected (front_W this lock)
  end.

Definition call_back (this : Addr) (t : Token) : resolution (M T T) :=
  match t with
  | ReadToken lock => Selected (back_R this lock)
  | WriteToken lock => Selected (back_W this lock)
  end.

Definition call_empty (this : Addr) (t : Token) : resolution (M T bool) :=
  match t with
  | ReadToken lock => Selected (empty_R this lock)
  | WriteToken lock => Selected (empty_W this lock)
  end.

Definition call_size (this : Addr) (t : Token) : resolution (M T nat) :=
  match t with
  | ReadToken lock => Selected (size_R this lock)
  | WriteToken lock => Selected (size_W this lock)
  end.

Definition call_push (this : Addr) (value : T) (t : Token) : resolution (M T unit) :=
  match t with
  | ReadToken _ => NoViableOverload
  | WriteToken lock => Selected (push this value lock)
  end.

Definition call_pop (this : Addr) (t : Token) : resolution (M T T) :=
  match t with
  | ReadToken _ => NoViableOverload
  | WriteToken lock => Selected (pop this lock)
  end.

(** Whether the queue expression handed to a view constructor is a const
    lvalue. Both constructors take [ThreadSafeQueue&], to which only a
    non-const lvalue binds. *)
Inductive qualifier :=
| NonConst
| Const.

(** [IterableView(queue, lock)]: one constructor, taking
    [ThreadSafeQueue&] and [ReadLock&]. *)
Definition call_IterableView (q : qualifier) (queue : Addr) (t : Token)
  : resolution (M T IterableView) :=
  match q, t with
  | NonConst, ReadToken lock => Selected (IterableView_ctor queue lock)
  | _, _ => NoViableOverload
  end.

(** [IterableWriteView(queue, lock)]: one constructor, taking
    [ThreadSafeQueue&] and [WriteLock&]. *)
Definition call_IterableWriteView (q : qualifier) (queue : Addr) (t : Token)
  : resolution (M T IterableWriteView) :=
  match q, t with
  | NonConst, WriteToken lock => Selected (IterableWriteView_ctor queue lock)
  | _, _ => NoViableOverload
  end.

(** [acquire_iterable_view] is a const member, so in its body

      ASSERT(is_valid_lock(lock));  return IterableView( *this, lock);

    [*this] is a const lvalue. The member of the class template is
    instantiated where it is first called, and the call compiles only if
    the constructor call in the body finds a constructor. *)
Definition acquire_iterable_view (this : Addr) (lock : ReadLock)
  : resolution (M T IterableView) :=
  match call_IterableView Const this (ReadToken lock) with
  | Selected construct => Selected (ASSERT (is_valid_lock this lock);; construct)
  | NoViableOverload => NoViableOverload
  end.

Definition call_acquire_iterable_view (this : Addr) (t : Token)
  : resolution (M T IterableView) :=
  match t with
  | ReadToken lock => acquire_iterable_view this lock
  | WriteToken _ => NoViableOverload
  end.

Definition call_acquire_iterable_write_view (this : Addr) (t : Token)
  : resolution (M T IterableWriteView) :=
  match t with
  | ReadToken _ => NoViableOverload
  | WriteToken lock => Selected (acquire_iterable_write_view this lock)
  end.

(** Whether a call with this token compiles. *)
Definition accepted {A} (r : resolution A) : bool :=
  match r with Selected _ => true | NoViableOverload => false end.

(** *** client loops *)

(** [for (it = b; it != e; ++it) out.push_back( *it );] bounded by
    [fuel] iterations; [None] when the bound is hit first. *)
Fixpoint for_each (fuel : nat) (it e : Iterator) : M T (option (list T)) :=
  match fuel with
  | 0 => mret None
  | S fuel' =>
      if Iterator_ne it e then
        x ← Iterator_deref it;
        rest ← for_each fuel' (Iterator_incr it) e;
        mret (cons x <$> rest)
      else mret (Some [])
  end.

(** Build a read view from [lock] and walk it from [begin()] to [end()]. *)
Definition traverse_IterableView (fuel : nat) (queue : Addr) (lock : ReadLock)
  : M T (option (list T)) :=
  v ← IterableView_ctor queue lock;
  b ← IterableView_begin v;
  e ← IterableView_end v;
  for_each fuel b e.

(** The same through the write view's const iterators ... *)
Definition traverse_IterableWriteView_const (fuel : nat) (queue : Addr) (lock : WriteLock)
  : M T (option (list T)) :=
  v ← IterableWriteView_ctor queue lock;
  b ← IterableWriteView_cbegin v;
  e ← IterableWriteView_cend v;
  for_each fuel b e.

(** ... and through its mutable iterators. *)
Definition traverse_IterableWriteView (fuel : nat) (queue : Addr) (lock : WriteLock)
  : M T (option (list T)) :=
  v ← IterableWriteView_ctor queue lock;
  b ← IterableWriteView_begin v;
  e ← IterableWriteView_end v;
  for_each fuel b e.

(** One [push] per value, each under the write lock paired with it. *)
Fixpoint push_each (this : Addr) (ps : list (T * WriteLock)) : M T unit :=
  match ps with
  | [] => mret ()
  | (value, lock) :: ps' => push this value lock;; push_each this ps'
  end.

(** One [pop] per write lock, collecting the values in the order popped. *)
Fixpoint pop_each (this : Addr) (locks : list WriteLock) : M T (list T) :=
  match locks with
  | [] => mret []
  | lock :: locks' =>
      x ← pop this lock;
      xs ← pop_each this locks';
      mret (x :: xs)
  end.

(** Build a write view, push behind its back, and only then walk the view:
    [IterableWriteView v(q, lock); q.push(value, lock); for (x : v) ...]. *)
Definition traverse_after_push (fuel : nat) (queue : Addr) (value : T) (lock : WriteLock)
  : M T (option (list T)) :=
  v ← IterableWriteView_ctor queue lock;
  push queue value lock;;
  b ← IterableWriteView_cbegin v;
  e ← IterableWriteView_cend v;
  for_each fuel b e.

(** Assign the element at offset [i] through the write view's mutable
    iterator: [*(v.begin() + i) = value]. *)
Definition assign_through_view (queue : Addr) (lock : WriteLock) (i : nat) (value : T)
  : M T unit :=
  v ← IterableWriteView_ctor queue lock;
  b ← IterableWriteView_begin v;
  Iterator_assign (Iterator_advance b i) value.
End ThreadSafeQueue.

(** Whether a call ran into undefined behaviour. *)
Definition well_defined {T A} (o : outcome T A) : bool :=
  match o with UndefinedBehaviour => false | _ => true end.

(** Whether a call ended in the failed-assertion abort. *)
Definition aborted {T A} (o : outcome T A) : bool :=
  match o with AssertionFailure => true | _ => false end.

(** ** Concrete configurations and stores used in the examples *)

Definition debug_build : BuildConfig := {| NDEBUG := false |}.
Definition release_build : BuildConfig := {| NDEBUG := true |}.

(** One empty queue at address 1. *)
Definition one_empty_queue : Heap nat := {[ 1%N := [] ]}.

(** Queue A at address 1 and queue B at address 2. *)
Definition two_queues : Heap nat := {[ 1%N := [10]; 2%N := [20; 30] ]}.

(** The queue of the specification's scenario after its three pushes. *)
Definition three_elements : Heap nat := {[ 1%N := [1; 2; 3] ]}.

(** * Properties *)

(** ** The monad and the assertion *)

Section Basics.
Context {T : Type} `{BuildConfig}.
Implicit Types (h : gmap Addr (list T)) (this : Addr) (d : list T).

Lemma bind_Returned {A B} (m : M T A) (f : A → M T B) h a h' :
  m h = Returned a h' → (m ≫= f) h = f a h'.
Proof. intros Hm. unfold mbind, M_mbind, M_bind. by rewrite Hm. Qed.

Lemma bind_AssertionFailure {A B} (m : M T A) (f : A → M T B) h :
  m h = AssertionFailure → (m ≫= f) h = AssertionFailure.
Proof. intros Hm. unfold mbind, M_mbind, M_bind. by rewrite Hm. Qed.

Lemma bind_UndefinedBehaviour {A B} (m : M T A) (f : A → M T B) h :
  m h = UndefinedBehaviour → (m ≫= f) h = UndefinedBehaviour.
Proof. intros Hm. unfold mbind, M_mbind, M_bind. by rewrite Hm. Qed.

Lemma ASSERT_pass c h : c = true → ASSERT (T:=T) c h = Returned () h.
Proof. intros ->. unfold ASSERT. by destruct NDEBUG. Qed.

Lemma ASSERT_abort h : NDEBUG = false → ASSERT (T:=T) false h = AssertionFailure.
Proof. intros Hn. unfold ASSERT. by rewrite Hn. Qed.

Lemma ASSERT_compiled_out c h : NDEBUG = true → ASSERT (T:=T) c h = Returned () h.
Proof. intros Hn. unfold ASSERT. by rewrite Hn. Qed.

(** An assertion never changes the store. *)
Lemma ASSERT_cases c h :
  ASSERT (T:=T) c h = Returned () h ∨ ASSERT (T:=T) c h = AssertionFailure.
Proof. unfold ASSERT. destruct NDEBUG, c; auto. Qed.

Lemma SuperQueue_read_live {A} this (f : list T → option A) h d a :
  h !! this = Some d → f d = Some a → SuperQueue_read this f h = Returned a h.
Proof. intros Hd Hf. unfold SuperQueue_read. by rewrite Hd, Hf. Qed.

Lemma SuperQueue_read_violated {A} this (f : list T → option A) h d :
  h !! this = Some d → f d = None → SuperQueue_read this f h = UndefinedBehaviour.
Proof. intros Hd Hf. unfold SuperQueue_read. by rewrite Hd, Hf. Qed.

Lemma SuperQueue_write_live this (f : list T → option (list T)) h d d' :
  h !! this = Some d → f d = Some d' →
  SuperQueue_write this f h = Returned () (<[this := d']> h).
Proof. intros Hd Hf. unfold SuperQueue_write. by rewrite Hd, Hf. Qed.

(** A const member of the deque returns with the store it was given. *)
Lemma SuperQueue_read_frame {A} this (f : list T → option A) h :
  heap_after (SuperQueue_read this f h) = Some h
  ∨ SuperQueue_read this f h = UndefinedBehaviour.
Proof.
  unfold SuperQueue_read. destruct (h !! this) as [d|]; [|by right].
  destruct (f d); [by left | by right].
Qed.

(** A guarded const member: [ASSERT] first, then a read of the deque. *)
Lemma guarded_read_valid {A} c this (f : list T → option A) h d a :
  c = true → h !! this = Some d → f d = Some a →
  (ASSERT c;; SuperQueue_read this f) h = Returned a h.
Proof.
  intros Hc Hd Hf. rewrite (bind_Returned _ _ h () h) by by apply ASSERT_pass.
  by eapply SuperQueue_read_live.
Qed.

Lemma guarded_read_frame {A} c this (f : list T → option A) h :
  match (ASSERT c;; SuperQueue_read this f) h with
  | Returned _ h' => h' = h
  | _ => True
  end.
Proof.
  destruct (ASSERT_cases c h) as [Hc|Hc].
  - rewrite (bind_Returned _ _ h () h) by done.
    destruct (SuperQueue_read_frame this f h) as [Hr|Hr].
    + destruct (SuperQueue_read this f h); simplify_eq/=; done.
    + by rewrite Hr.
  - by rewrite bind_AssertionFailure.
Qed.

Lemma guarded_abort {A} c (m : M T A) h :
  NDEBUG = false → c = false → (ASSERT c;; m) h = AssertionFailure.
Proof. intros Hn ->. apply bind_AssertionFailure. by apply ASSERT_abort. Qed.

(** The lock returned by [acquire_*_lock] names this queue's mutex. *)
Lemma is_valid_lock_acquire_read this :
  is_valid_lock this (acquire_read_lock this) = true.
Proof. unfold is_valid_lock. by apply bool_decide_eq_true. Qed.

Lemma is_valid_lock_acquire_write this :
  is_valid_lock this (acquire_write_lock this) = true.
Proof. unfold is_valid_lock. by apply bool_decide_eq_true. Qed.

Lemma is_valid_lock_spec `{Lock L} this (lock : L) :
  is_valid_lock this lock = true ↔ mutex lock = Some this.
Proof. unfold is_valid_lock, m_mutex. apply bool_decide_eq_true. Qed.

(** A lock taken from one queue is not valid for another. *)
Lemma is_valid_lock_other_read a b :
  a ≠ b → is_valid_lock b (acquire_read_lock a) = false.
Proof.
  intros Hab. unfold is_valid_lock. apply bool_decide_eq_false.
  unfold acquire_read_lock, ReadLock_ctor, mutex, ReadLock_Lock, m_mutex; simpl. congruence.
Qed.

Lemma is_valid_lock_other_write a b :
  a ≠ b → is_valid_lock b (acquire_write_lock a) = false.
Proof.
  intros Hab. unfold is_valid_lock. apply bool_decide_eq_false.
  unfold acquire_write_lock, WriteLock_ctor, mutex, WriteLock_Lock, m_mutex; simpl. congruence.
Qed.
End Basics.

(** ** Mutators *)

Section Mutators.
Context {T : Type} `{BuildConfig}.
Implicit Types (h : gmap Addr (list T)) (this : Addr) (d : list T).

Lemma push_valid this (value : T) lock h d :
  h !! this = Some d → is_valid_lock this lock = true →
  push this value lock h = Returned () (<[this := d ++ [value]]> h).
Proof.
  intros Hd Hv. unfold push.
  rewrite (bind_Returned _ _ h () h) by by apply ASSERT_pass.
  by eapply SuperQueue_write_live.
Qed.

Lemma pop_valid this lock h (x : T) d :
  h !! this = Some (x :: d) → is_valid_lock this lock = true →
  pop this lock h = Returned x (<[this := d]> h).
Proof.
  intros Hd Hv. unfold pop.
  rewrite (bind_Returned _ _ h () h) by by apply ASSERT_pass.
  rewrite (bind_Returned _ _ h x h) by by eapply SuperQueue_read_live.
  rewrite (bind_Returned _ _ h () (<[this := d]> h)) by by eapply SuperQueue_write_live.
  done.
Qed.

(** Pushing a batch appends its values, in order, behind what was there. *)
Lemma push_each_valid this (ps : list (T * WriteLock)) h d :
  h !! this = Some d →
  Forall (λ p, is_valid_lock this p.2 = true) ps →
  push_each this ps h = Returned () (<[this := d ++ ps.*1]> h).
Proof.
  intros Hd Hv. revert h d Hd. induction Hv as [|[v l] ps Hl _ IH]; intros h d Hd.
  - simpl. rewrite app_nil_r, insert_id by done. done.
  - simpl in *. rewrite (bind_Returned _ _ h () (<[this := d ++ [v]]> h))
      by by apply push_valid.
    rewrite (IH _ (d ++ [v])) by by rewrite lookup_insert_eq.
    by rewrite insert_insert_eq, <-app_assoc.
Qed.

(** Popping [length xs] times hands back the first [xs] and leaves the rest. *)
Lemma pop_each_valid this (locks : list WriteLock) h (xs d : list T) :
  h !! this = Some (xs ++ d) →
  length locks = length xs →
  Forall (λ l, is_valid_lock this l = true) locks →
  pop_each this locks h = Returned xs (<[this := d]> h).
Proof.
  intros Hd Hlen Hv. revert h xs Hd Hlen.
  induction Hv as [|l locks Hl _ IH]; intros h xs Hd Hlen.
  - destruct xs; [|done]. simpl in *. by rewrite insert_id.
  - destruct xs as [|x xs]; [done|]. simpl in *.
    rewrite (bind_Returned _ _ h x (<[this := xs ++ d]> h)) by by apply pop_valid.
    rewrite (bind_Returned _ _ _ xs (<[this := d]> h)).
    + done.
    + rewrite (IH _ xs); [by rewrite insert_insert_eq | by rewrite lookup_insert_eq | lia].
Qed.

(** C1. FIFO order: starting from an empty queue, pushing v1..vn, each
    under a write lock of this queue, and then popping n times, each
    under a write lock of this queue, returns exactly v1..vn in that
    order and leaves the queue empty again. *)
Theorem fifo_order this (ps : list (T * WriteLock)) (locks : list WriteLock) h :
  h !! this = Some [] →
  Forall (λ p, is_valid_lock this p.2 = true) ps →
  Forall (λ l, is_valid_lock this l = true) locks →
  length locks = length ps →
  (push_each this ps;; pop_each this locks) h = Returned ps.*1 h.
Proof.
  intros Hd Hps Hlocks Hlen.
  rewrite (bind_Returned _ _ h () (<[this := ps.*1]> h)).
  - rewrite (pop_each_valid this locks _ ps.*1 []).
    + by rewrite insert_insert_eq, insert_id.
    + by rewrite lookup_insert_eq, app_nil_r.
    + by rewrite length_fmap.
    + done.
  - by rewrite (push_each_valid this ps h []).
Qed.

(** C5. pop on a non-empty queue, under a write lock of this queue,
    returns the head element (the one inserted first) and leaves exactly
    the remaining elements, in their previous order; the size goes down
    by exactly one and no other queue is touched. *)
Theorem pop_removes_head this (lock : WriteLock) h (x : T) d :
  h !! this = Some (x :: d) →
  is_valid_lock this lock = true →
  pop this lock h = Returned x (<[this := d]> h)
  ∧ <[this := d]> h !! this = Some d
  ∧ size_W this lock h = Returned (S (length d)) h
  ∧ size_W this lock (<[this := d]> h) = Returned (length d) (<[this := d]> h)
  ∧ (∀ other, other ≠ this → <[this := d]> h !! other = h !! other).
Proof.
  intros Hd Hv. split_and!.
  - by apply pop_valid.
  - by rewrite lookup_insert_eq.
  - by eapply guarded_read_valid.
  - eapply guarded_read_valid; [done | by rewrite lookup_insert_eq | done].
  - intros other Hne. by rewrite lookup_insert_ne.
Qed.

(** C6. push under a write lock of this queue always returns; afterwards
    the sequence is the old one followed by the pushed value, so [back]
    returns that value, every element that was present is still at its
    position, and the size has grown by exactly one. *)
Theorem push_appends_at_tail this (value : T) (lock : WriteLock) h d :
  h !! this = Some d →
  is_valid_lock this lock = true →
  push this value lock h = Returned () (<[this := d ++ [value]]> h)
  ∧ <[this := d ++ [value]]> h !! this = Some (d ++ [value])
  ∧ back_W this lock (<[this := d ++ [value]]> h)
    = Returned value (<[this := d ++ [value]]> h)
  ∧ (∀ i x, d !! i = Some x → (d ++ [value]) !! i = Some x)
  ∧ size_W this lock h = Returned (length d) h
  ∧ size_W this lock (<[this := d ++ [value]]> h)
    = Returned (S (length d)) (<[this := d ++ [value]]> h).
Proof.
  intros Hd Hv. split_and!.
  - by apply push_valid.
  - by rewrite lookup_insert_eq.
  - eapply guarded_read_valid; [done | by rewrite lookup_insert_eq |].
    unfold deque_back. by rewrite last_snoc.
  - intros i x Hi. by apply lookup_app_l_Some.
  - by eapply guarded_read_valid.
  - eapply guarded_read_valid; [done | by rewrite lookup_insert_eq |].
    unfold deque_size. rewrite length_app. simpl. f_equal. lia.
Qed.
End Mutators.

(** ** Observers *)

Section Observers.
Context {T : Type} `{BuildConfig}.
Implicit Types (h : gmap Addr (list T)) (this : Addr) (d : list T).

(** What a guarded const member does on a live queue under a valid lock. *)
Lemma guarded_read_outcome {A} c this (f : list T → option A) h d :
  c = true → h !! this = Some d →
  (ASSERT c;; SuperQueue_read this f) h
  = match f d with Some a => Returned a h | None => UndefinedBehaviour end.
Proof.
  intros Hc Hd. destruct (f d) as [a|] eqn:Hf.
  - by eapply guarded_read_valid.
  - rewrite (bind_Returned _ _ h () h) by by apply ASSERT_pass.
    by eapply SuperQueue_read_violated.
Qed.

Lemma guarded_read_violated {A} c this (f : list T → option A) h d :
  c = true → h !! this = Some d → f d = None →
  (ASSERT c;; SuperQueue_read this f) h = UndefinedBehaviour.
Proof. intros Hc Hd Hf. by rewrite (guarded_read_outcome _ _ _ _ d), Hf. Qed.

Lemma IterableView_ctor_valid queue lock h :
  is_valid_lock queue lock = true →
  IterableView_ctor (T:=T) queue lock h = Returned (mkIterableView queue lock) h.
Proof.
  intros Hv. unfold IterableView_ctor.
  by rewrite (bind_Returned _ _ h () h) by by apply ASSERT_pass.
Qed.

Lemma IterableWriteView_ctor_valid queue lock h :
  is_valid_lock queue lock = true →
  IterableWriteView_ctor (T:=T) queue lock h = Returned (mkIterableWriteView queue lock) h.
Proof.
  intros Hv. unfold IterableWriteView_ctor.
  by rewrite (bind_Returned _ _ h () h) by by apply ASSERT_pass.
Qed.

Lemma acquire_iterable_write_view_valid this lock h :
  is_valid_lock this lock = true →
  acquire_iterable_write_view (T:=T) this lock h
  = Returned (mkIterableWriteView this lock) h.
Proof.
  intros Hv. unfold acquire_iterable_write_view.
  rewrite (bind_Returned _ _ h () h) by by apply ASSERT_pass.
  by apply IterableWriteView_ctor_valid.
Qed.

(** Whatever the lock, a view constructor returns with the store it got. *)
Lemma IterableView_ctor_frame queue lock h :
  match IterableView_ctor (T:=T) queue lock h with
  | Returned _ h' => h' = h
  | _ => True
  end.
Proof.
  unfold IterableView_ctor.
  destruct (ASSERT_cases (T:=T) (is_valid_lock queue lock) h) as [Hc|Hc].
  - by rewrite (bind_Returned _ _ h () h).
  - by rewrite bind_AssertionFailure.
Qed.

(** C9, as the code has it. On a live queue and under locks of that
    queue, empty and size (both overloads) return with the store exactly as
    it was before the call, whatever the queue holds; front and back (both
    overloads) do so on every non-empty queue, and on an empty queue they
    are undefined and leave no state behind. *)
Theorem observers_leave_queue_unchanged this (rl : ReadLock) (wl : WriteLock) h d :
  h !! this = Some d →
  is_valid_lock this rl = true →
  is_valid_lock this wl = true →
  front_R this rl h
    = match d with x :: _ => Returned x h | [] => UndefinedBehaviour end
  ∧ front_W this wl h
    = match d with x :: _ => Returned x h | [] => UndefinedBehaviour end
  ∧ back_R this rl h
    = match last d with Some x => Returned x h | None => UndefinedBehaviour end
  ∧ back_W this wl h
    = match last d with Some x => Returned x h | None => UndefinedBehaviour end
  ∧ empty_R this rl h = Returned (bool_decide (d = [])) h
  ∧ empty_W this wl h = Returned (bool_decide (d = [])) h
  ∧ size_R this rl h = Returned (length d) h
  ∧ size_W this wl h = Returned (length d) h.
Proof.
  intros Hd Hr Hw.
  assert (deque_empty d = bool_decide (d = [])) as Hempty.
  { unfold deque_empty. apply bool_decide_ext. by destruct d. }
  split_and!.
  - unfold front_R, SuperQueue_front. rewrite (guarded_read_outcome _ _ _ _ d) by done.
    by destruct d.
  - unfold front_W, SuperQueue_front. rewrite (guarded_read_outcome _ _ _ _ d) by done.
    by destruct d.
  - unfold back_R, SuperQueue_back. by rewrite (guarded_read_outcome _ _ _ _ d).
  - unfold back_W, SuperQueue_back. by rewrite (guarded_read_outcome _ _ _ _ d).
  - unfold empty_R, SuperQueue_empty.
    rewrite (guarded_read_outcome _ _ _ _ d) by done. by rewrite Hempty.
  - unfold empty_W, SuperQueue_empty.
    rewrite (guarded_read_outcome _ _ _ _ d) by done. by rewrite Hempty.
  - unfold size_R, SuperQueue_size. by rewrite (guarded_read_outcome _ _ _ _ d).
  - unfold size_W, SuperQueue_size. by rewrite (guarded_read_outcome _ _ _ _ d).
Qed.

(** X13. Without any assumption on the lock, the store or the build: an
    observer that returns, returns with the store it was given, so no
    observer ever changes any queue. *)
Lemma observers_frame this (rl : ReadLock) (wl : WriteLock) h :
  heap_after (front_R this rl h) ∈ [None; Some h]
  ∧ heap_after (front_W this wl h) ∈ [None; Some h]
  ∧ heap_after (back_R this rl h) ∈ [None; Some h]
  ∧ heap_after (back_W this wl h) ∈ [None; Some h]
  ∧ heap_after (empty_R this rl h) ∈ [None; Some h]
  ∧ heap_after (empty_W this wl h) ∈ [None; Some h]
  ∧ heap_after (size_R this rl h) ∈ [None; Some h]
  ∧ heap_after (size_W this wl h) ∈ [None; Some h].
Proof.
  assert (∀ A (o : outcome T A),
    match o with Returned _ h' => h' = h | _ => True end →
    heap_after o ∈ [None; Some h]) as Hin.
  { intros A [a h'| |] Ho; simpl; [subst h'|..]; set_solver. }
  split_and!; apply Hin, guarded_read_frame.
Qed.
End Observers.

(** ** Token validation *)

Section Validation.
Context {T : Type} `{BuildConfig}.
Implicit Types (h : gmap Addr (list T)) (this : Addr) (d : list T).

(** The deque's own members never end in the assertion abort. *)
Lemma SuperQueue_read_no_abort {A} this (f : list T → option A) h :
  aborted (SuperQueue_read this f h) = false.
Proof. unfold SuperQueue_read. destruct (h !! this) as [d|]; [destruct (f d)|]; done. Qed.

Lemma SuperQueue_write_no_abort this (f : list T → option (list T)) h :
  aborted (SuperQueue_write this f h) = false.
Proof. unfold SuperQueue_write. destruct (h !! this) as [d|]; [destruct (f d)|]; done. Qed.

(** Past a passing assertion, a member aborts only if its body does. *)
Lemma guarded_no_abort {A} c (m : M T A) h :
  c = true → aborted (m h) = false → aborted ((ASSERT c;; m) h) = false.
Proof. intros Hc Hm. by rewrite (bind_Returned _ _ h () h) by by apply ASSERT_pass. Qed.

Lemma pop_body_no_abort this h :
  aborted ((front ← SuperQueue_front (T:=T) this;
            SuperQueue_pop_front this;; mret front) h) = false.
Proof.
  unfold SuperQueue_front.
  destruct (SuperQueue_read this deque_front h) as [x h'| |] eqn:Hf.
  - rewrite (bind_Returned _ _ h x h') by done.
    unfold SuperQueue_pop_front.
    destruct (SuperQueue_write this deque_pop_front h') as [[] h''| |] eqn:Hp.
    + by rewrite (bind_Returned _ _ h' () h'').
    + pose proof (SuperQueue_write_no_abort this deque_pop_front h') as Hn.
      by rewrite Hp in Hn.
    + by rewrite bind_UndefinedBehaviour.
  - pose proof (SuperQueue_read_no_abort this deque_front h) as Hn.
    by rewrite Hf in Hn.
  - by rewrite bind_UndefinedBehaviour.
Qed.

(** Every member run under a lock that passes [is_valid_lock]. *)
Lemma valid_lock_never_aborts this (rl : ReadLock) (wl : WriteLock) (value : T) h :
  is_valid_lock this rl = true →
  is_valid_lock this wl = true →
  aborted (front_R this rl h) = false
  ∧ aborted (front_W this wl h) = false
  ∧ aborted (back_R this rl h) = false
  ∧ aborted (back_W this wl h) = false
  ∧ aborted (empty_R this rl h) = false
  ∧ aborted (empty_W this wl h) = false
  ∧ aborted (size_R this rl h) = false
  ∧ aborted (size_W this wl h) = false
  ∧ aborted (push this value wl h) = false
  ∧ aborted (pop this wl h) = false
  ∧ aborted (IterableView_ctor (T:=T) this rl h) = false
  ∧ aborted (IterableWriteView_ctor (T:=T) this wl h) = false
  ∧ aborted (acquire_iterable_write_view (T:=T) this wl h) = false.
Proof.
  intros Hr Hw. split_and!;
    try (apply guarded_no_abort;
         [done | first [apply SuperQueue_read_no_abort
                       | apply SuperQueue_write_no_abort
                       | apply pop_body_no_abort]]).
  - by rewrite IterableView_ctor_valid.
  - by rewrite IterableWriteView_ctor_valid.
  - by rewrite acquire_iterable_write_view_valid.
Qed.

(** Every member run under a lock that fails [is_valid_lock], in a build
    that keeps assertions. *)
Lemma invalid_lock_aborts this (rl : ReadLock) (wl : WriteLock) (value : T) h :
  NDEBUG = false →
  is_valid_lock this rl = false →
  is_valid_lock this wl = false →
  front_R this rl h = AssertionFailure
  ∧ front_W this wl h = AssertionFailure
  ∧ back_R this rl h = AssertionFailure
  ∧ back_W this wl h = AssertionFailure
  ∧ empty_R this rl h = AssertionFailure
  ∧ empty_W this wl h = AssertionFailure
  ∧ size_R this rl h = AssertionFailure
  ∧ size_W this wl h = AssertionFailure
  ∧ push this value wl h = AssertionFailure
  ∧ pop this wl h = AssertionFailure
  ∧ IterableView_ctor (T:=T) this rl h = AssertionFailure
  ∧ IterableWriteView_ctor (T:=T) this wl h = AssertionFailure
  ∧ acquire_iterable_write_view (T:=T) this wl h = AssertionFailure.
Proof. intros Hn Hr Hw. split_and!; by apply guarded_abort. Qed.

(** C3, as the code has it. In a build that keeps assertions (NDEBUG not
    defined), a lock acquired from queue [a] and presented to front, back,
    empty, size, push, pop, acquire_iterable_write_view or a view
    constructor of a different queue [b] stops the program at the
    assertion, whatever the store holds: the check comes before any access
    to the deque, and nothing is read or written. *)
Theorem cross_instance_token_aborts a b (value : T) h :
  NDEBUG = false →
  a ≠ b →
  front_R b (acquire_read_lock a) h = AssertionFailure
  ∧ front_W b (acquire_write_lock a) h = AssertionFailure
  ∧ back_R b (acquire_read_lock a) h = AssertionFailure
  ∧ back_W b (acquire_write_lock a) h = AssertionFailure
  ∧ empty_R b (acquire_read_lock a) h = AssertionFailure
  ∧ empty_W b (acquire_write_lock a) h = AssertionFailure
  ∧ size_R b (acquire_read_lock a) h = AssertionFailure
  ∧ size_W b (acquire_write_lock a) h = AssertionFailure
  ∧ push b value (acquire_write_lock a) h = AssertionFailure
  ∧ pop b (acquire_write_lock a) h = AssertionFailure
  ∧ IterableView_ctor (T:=T) b (acquire_read_lock a) h = AssertionFailure
  ∧ IterableWriteView_ctor (T:=T) b (acquire_write_lock a) h = AssertionFailure
  ∧ acquire_iterable_write_view (T:=T) b (acquire_write_lock a) h = AssertionFailure.
Proof.
  intros Hn Hab. apply invalid_lock_aborts; [done | |].
  - by apply is_valid_lock_other_read.
  - by apply is_valid_lock_other_write.
Qed.

(** C10. A lock obtained from a queue's own acquire_read_lock or
    acquire_write_lock passes that queue's is_valid_lock, the ASSERT on
    it returns, and no member called with it ends in the assertion
    abort, in any store and in either build. *)
Theorem own_token_passes_validation this (value : T) h :
  is_valid_lock this (acquire_read_lock this) = true
  ∧ is_valid_lock this (acquire_write_lock this) = true
  ∧ ASSERT (is_valid_lock this (acquire_read_lock this)) h = Returned () h
  ∧ ASSERT (is_valid_lock this (acquire_write_lock this)) h = Returned () h
  ∧ aborted (front_R this (acquire_read_lock this) h) = false
  ∧ aborted (front_W this (acquire_write_lock this) h) = false
  ∧ aborted (back_R this (acquire_read_lock this) h) = false
  ∧ aborted (back_W this (acquire_write_lock this) h) = false
  ∧ aborted (empty_R this (acquire_read_lock this) h) = false
  ∧ aborted (empty_W this (acquire_write_lock this) h) = false
  ∧ aborted (size_R this (acquire_read_lock this) h) = false
  ∧ aborted (size_W this (acquire_write_lock this) h) = false
  ∧ aborted (push this value (acquire_write_lock this) h) = false
  ∧ aborted (pop this (acquire_write_lock this) h) = false
  ∧ aborted (IterableView_ctor (T:=T) this (acquire_read_lock this) h) = false
  ∧ aborted (IterableWriteView_ctor (T:=T) this (acquire_write_lock this) h) = false
  ∧ aborted (acquire_iterable_write_view (T:=T) this (acquire_write_lock this) h)
    = false.
Proof.
  pose proof (is_valid_lock_acquire_read this) as Hr.
  pose proof (is_valid_lock_acquire_write this) as Hw.
  split; [done|]. split; [done|].
  split; [by apply ASSERT_pass|]. split; [by apply ASSERT_pass|].
  by apply valid_lock_never_aborts.
Qed.

(** C2, as the code has it. On a queue of size 0, under locks of that
    queue, front, back and pop signal nothing: the header has no
    EmptyQueue condition and no emptiness check, the call reaches the
    deque with its precondition violated and is undefined. empty returns
    true and size returns 0 there, which is what a caller has to test
    first under the same lock. *)
Theorem empty_queue_access_is_undefined this (rl : ReadLock) (wl : WriteLock) h :
  h !! this = Some [] →
  is_valid_lock this rl = true →
  is_valid_lock this wl = true →
  size_R this rl h = Returned 0 h
  ∧ empty_R this rl h = Returned true h
  ∧ front_R this rl h = UndefinedBehaviour
  ∧ front_W this wl h = UndefinedBehaviour
  ∧ back_R this rl h = UndefinedBehaviour
  ∧ back_W this wl h = UndefinedBehaviour
  ∧ pop this wl h = UndefinedBehaviour.
Proof.
  intros Hd Hr Hw.
  split_and!; try by (eapply guarded_read_valid || eapply guarded_read_violated).
  unfold pop. rewrite (bind_Returned _ _ h () h) by by apply ASSERT_pass.
  apply bind_UndefinedBehaviour. by eapply SuperQueue_read_violated.
Qed.
End Validation.

(** ** Views *)

Section Views.
Context {T : Type} `{BuildConfig}.
Implicit Types (h : gmap Addr (list T)) (this queue : Addr) (d : list T).

Lemma SuperQueue_begin_live queue h d :
  h !! queue = Some d → SuperQueue_begin (T:=T) queue h = Returned (mkIterator queue 0) h.
Proof. intros Hd. by eapply SuperQueue_read_live. Qed.

Lemma SuperQueue_end_live queue h d :
  h !! queue = Some d →
  SuperQueue_end (T:=T) queue h = Returned (mkIterator queue (length d)) h.
Proof. intros Hd. by eapply SuperQueue_read_live. Qed.

Lemma Iterator_ne_same_container queue i j :
  Iterator_ne (mkIterator queue i) (mkIterator queue j) = negb (bool_decide (i = j)).
Proof. unfold Iterator_ne. f_equal. apply bool_decide_ext. simpl. tauto. Qed.

(** The loop from position [i] to the end position collects the elements
    from [i] on, given a bound above the number of steps; the store is
    the one it started with. *)
Lemma for_each_from queue h d fuel i :
  h !! queue = Some d →
  i ≤ length d →
  length d - i < fuel →
  for_each fuel (mkIterator queue i) (mkIterator queue (length d)) h
  = Returned (Some (drop i d)) h.
Proof.
  intros Hd. revert i. induction fuel as [|fuel IH]; intros i Hi Hfuel; [lia|].
  simpl. rewrite Iterator_ne_same_container. case_bool_decide as Hend; simpl.
  - subst i. by rewrite drop_all.
  - destruct (lookup_lt_is_Some_2 d i) as [x Hx]; [lia|].
    rewrite (bind_Returned _ _ h x h) by by eapply SuperQueue_read_live.
    rewrite (bind_Returned _ _ h (Some (drop (S i) d)) h).
    + simpl. unfold mret, M_mret, M_ret. by rewrite (drop_S d x i).
    + apply IH; lia.
Qed.

(** With too small a bound the loop is cut short: it takes exactly one
    test per element and one more to stop. *)
Lemma for_each_cut_short queue h d fuel i :
  h !! queue = Some d →
  i ≤ length d →
  fuel ≤ length d - i →
  for_each fuel (mkIterator queue i) (mkIterator queue (length d)) h = Returned None h.
Proof.
  intros Hd. revert i. induction fuel as [|fuel IH]; intros i Hi Hfuel; [done|].
  simpl. rewrite Iterator_ne_same_container. case_bool_decide as Hend; simpl; [lia|].
  destruct (lookup_lt_is_Some_2 d i) as [x Hx]; [lia|].
  rewrite (bind_Returned _ _ h x h) by by eapply SuperQueue_read_live.
  rewrite (bind_Returned _ _ h None h); [done|]. apply IH; simpl; lia.
Qed.

(** C7. Walking a view from begin() to end() ends after one step per
    element and yields exactly the queue's elements, front to back, for
    the read view and for the write view through its const and its
    mutable iterators alike; the queue is left as it was. *)
Theorem view_traversal_in_queue_order queue (rl : ReadLock) (wl : WriteLock) h d fuel :
  h !! queue = Some d →
  is_valid_lock queue rl = true →
  is_valid_lock queue wl = true →
  length d < fuel →
  traverse_IterableView fuel queue rl h = Returned (Some d) h
  ∧ traverse_IterableWriteView_const fuel queue wl h = Returned (Some d) h
  ∧ traverse_IterableWriteView fuel queue wl h = Returned (Some d) h.
Proof.
  intros Hd Hr Hw Hfuel.
  assert (for_each fuel (mkIterator queue 0) (mkIterator queue (length d)) h
          = Returned (Some d) h) as Hloop.
  { rewrite (for_each_from queue h d) by (done || lia). by rewrite drop_0. }
  split_and!.
  - unfold traverse_IterableView.
    rewrite (bind_Returned _ _ h (mkIterableView queue rl) h)
      by by apply IterableView_ctor_valid.
    rewrite (bind_Returned _ _ h (mkIterator queue 0) h)
      by by eapply SuperQueue_begin_live.
    by rewrite (bind_Returned _ _ h (mkIterator queue (length d)) h)
      by by eapply SuperQueue_end_live.
  - unfold traverse_IterableWriteView_const.
    rewrite (bind_Returned _ _ h (mkIterableWriteView queue wl) h)
      by by apply IterableWriteView_ctor_valid.
    rewrite (bind_Returned _ _ h (mkIterator queue 0) h)
      by by eapply SuperQueue_begin_live.
    by rewrite (bind_Returned _ _ h (mkIterator queue (length d)) h)
      by by eapply SuperQueue_end_live.
  - unfold traverse_IterableWriteView.
    rewrite (bind_Returned _ _ h (mkIterableWriteView queue wl) h)
      by by apply IterableWriteView_ctor_valid.
    rewrite (bind_Returned _ _ h (mkIterator queue 0) h)
      by by eapply SuperQueue_begin_live.
    by rewrite (bind_Returned _ _ h (mkIterator queue (length d)) h)
      by by eapply SuperQueue_end_live.
Qed.
End Views.

(** ** Which lock type each member takes *)

Section Overloads.
Context {T : Type} `{BuildConfig}.
Implicit Types (h : gmap Addr (list T)) (this : Addr) (d : list T).

(** On a live queue, the WriteLock overload of an observer, under the
    queue's write lock, does what the ReadLock overload does under its
    read lock. *)
Lemma write_lock_observes_like_read_lock this h d :
  h !! this = Some d →
  front_W this (acquire_write_lock this) h = front_R this (acquire_read_lock this) h
  ∧ back_W this (acquire_write_lock this) h = back_R this (acquire_read_lock this) h
  ∧ empty_W this (acquire_write_lock this) h = empty_R this (acquire_read_lock this) h
  ∧ size_W this (acquire_write_lock this) h = size_R this (acquire_read_lock this) h.
Proof.
  intros Hd.
  pose proof (is_valid_lock_acquire_read this) as Hr.
  pose proof (is_valid_lock_acquire_write this) as Hw.
  unfold front_W, front_R, back_W, back_R, empty_W, empty_R, size_W, size_R,
    SuperQueue_front, SuperQueue_back, SuperQueue_empty, SuperQueue_size.
  by rewrite !(guarded_read_outcome _ _ _ _ d).
Qed.

(** A holder of the write lock gets the read-only walk from the write
    view's const iterators: it is the walk of the read view. *)
Lemma write_view_walks_like_read_view fuel this h :
  traverse_IterableWriteView_const (T:=T) fuel this (acquire_write_lock this) h
  = traverse_IterableView (T:=T) fuel this (acquire_read_lock this) h.
Proof.
  unfold traverse_IterableWriteView_const, traverse_IterableView.
  rewrite (bind_Returned _ _ h (mkIterableWriteView this (acquire_write_lock this)) h)
    by apply IterableWriteView_ctor_valid, is_valid_lock_acquire_write.
  rewrite (bind_Returned _ _ h (mkIterableView this (acquire_read_lock this)) h)
    by apply IterableView_ctor_valid, is_valid_lock_acquire_read.
  done.
Qed.

(** C4. Where the code stands on the claim. As the claim says, front,
    back, empty and size take a write lock as well as a read lock, and
    push, pop and acquire_iterable_write_view take no read lock. Against
    the claim, a write lock gives no read view: the IterableView
    constructor has no viable overload for a WriteLock, whatever the queue
    expression, and acquire_iterable_view, declared for a ReadLock only,
    cannot be called with any lock at all, because its body hands the
    const [*this] to that constructor. *)
Theorem write_lock_has_no_read_view this (value : T) (rl : ReadLock) (wl : WriteLock)
    (q : qualifier) (t : Token) :
  (call_front (T:=T) this (WriteToken wl) = Selected (front_W this wl)
   ∧ call_back (T:=T) this (WriteToken wl) = Selected (back_W this wl)
   ∧ call_empty (T:=T) this (WriteToken wl) = Selected (empty_W this wl)
   ∧ call_size (T:=T) this (WriteToken wl) = Selected (size_W this wl))
  ∧ (accepted (call_push this value (ReadToken rl)) = false
     ∧ accepted (call_pop (T:=T) this (ReadToken rl)) = false
     ∧ accepted (call_acquire_iterable_write_view (T:=T) this (ReadToken rl)) = false)
  ∧ accepted (call_IterableView (T:=T) q this (WriteToken wl)) = false
  ∧ accepted (call_acquire_iterable_view (T:=T) this t) = false.
Proof.
  split; [done|]. split; [done|]. split.
  - by destruct q.
  - by destruct t.
Qed.

(** What the view constructors do accept: a non-const queue and the lock
    type of the view; acquire_iterable_write_view, a non-const member,
    passes exactly that. *)
Lemma view_constructor_calls this (rl : ReadLock) (wl : WriteLock) :
  call_IterableView (T:=T) NonConst this (ReadToken rl)
  = Selected (IterableView_ctor this rl)
  ∧ call_IterableWriteView (T:=T) NonConst this (WriteToken wl)
    = Selected (IterableWriteView_ctor this wl)
  ∧ accepted (call_IterableWriteView (T:=T) NonConst this (ReadToken rl)) = false
  ∧ accepted (call_IterableView (T:=T) Const this (ReadToken rl)) = false
  ∧ accepted (call_IterableWriteView (T:=T) Const this (WriteToken wl)) = false.
Proof. done. Qed.
End Overloads.

(** * Further properties of the header *)

(** ** What the validation looks at *)

Section ValidationScope.
Context {T : Type} `{BuildConfig}.
Implicit Types (h : gmap Addr (list T)) (this : Addr) (d : list T).

Lemma guarded_compiled_out {A} c (m : M T A) h :
  NDEBUG = true → (ASSERT c;; m) h = m h.
Proof. intros Hn. by rewrite (bind_Returned _ _ h () h) by by apply ASSERT_compiled_out. Qed.

Lemma is_valid_lock_null_read this : is_valid_lock this ReadLock_default = false.
Proof. done. Qed.

Lemma is_valid_lock_null_write this : is_valid_lock this WriteLock_default = false.
Proof. done. Qed.

(** X1. In a build that keeps assertions, front, back, empty, size, push,
    pop, acquire_iterable_write_view and the two view constructors end in
    the assertion abort exactly when the lock they were given is not
    associated with this queue's mutex, whatever the store holds (empty
    queue, other queues): nothing else makes them abort, and nothing lets
    an unassociated lock through. *)
Theorem abort_exactly_on_invalid_lock this (rl : ReadLock) (wl : WriteLock) (value : T) h :
  NDEBUG = false →
  aborted (front_R this rl h) = negb (is_valid_lock this rl)
  ∧ aborted (back_R this rl h) = negb (is_valid_lock this rl)
  ∧ aborted (empty_R this rl h) = negb (is_valid_lock this rl)
  ∧ aborted (size_R this rl h) = negb (is_valid_lock this rl)
  ∧ aborted (IterableView_ctor (T:=T) this rl h) = negb (is_valid_lock this rl)
  ∧ aborted (front_W this wl h) = negb (is_valid_lock this wl)
  ∧ aborted (back_W this wl h) = negb (is_valid_lock this wl)
  ∧ aborted (empty_W this wl h) = negb (is_valid_lock this wl)
  ∧ aborted (size_W this wl h) = negb (is_valid_lock this wl)
  ∧ aborted (push this value wl h) = negb (is_valid_lock this wl)
  ∧ aborted (pop this wl h) = negb (is_valid_lock this wl)
  ∧ aborted (IterableWriteView_ctor (T:=T) this wl h) = negb (is_valid_lock this wl)
  ∧ aborted (acquire_iterable_write_view (T:=T) this wl h) = negb (is_valid_lock this wl).
Proof.
  intros Hn.
  assert (aborted (front_R this rl h) = negb (is_valid_lock this rl)
          ∧ aborted (back_R this rl h) = negb (is_valid_lock this rl)
          ∧ aborted (empty_R this rl h) = negb (is_valid_lock this rl)
          ∧ aborted (size_R this rl h) = negb (is_valid_lock this rl)
          ∧ aborted (IterableView_ctor (T:=T) this rl h)
            = negb (is_valid_lock this rl)) as Hreads.
  { destruct (is_valid_lock this rl) eqn:Hr; simpl.
    - destruct (valid_lock_never_aborts this rl (acquire_write_lock this) value h Hr
                  (is_valid_lock_acquire_write this))
        as (?&_&?&_&?&_&?&_&_&_&?&_&_).
      done.
    - destruct (invalid_lock_aborts this rl WriteLock_default value h Hn Hr
                  (is_valid_lock_null_write this))
        as (Hf&_&Hb&_&He&_&Hs&_&_&_&Hc&_&_).
      by rewrite Hf, Hb, He, Hs, Hc. }
  assert (aborted (front_W this wl h) = negb (is_valid_lock this wl)
          ∧ aborted (back_W this wl h) = negb (is_valid_lock this wl)
          ∧ aborted (empty_W this wl h) = negb (is_valid_lock this wl)
          ∧ aborted (size_W this wl h) = negb (is_valid_lock this wl)
          ∧ aborted (push this value wl h) = negb (is_valid_lock this wl)
          ∧ aborted (pop this wl h) = negb (is_valid_lock this wl)
          ∧ aborted (IterableWriteView_ctor (T:=T) this wl h)
            = negb (is_valid_lock this wl)
          ∧ aborted (acquire_iterable_write_view (T:=T) this wl h)
            = negb (is_valid_lock this wl)) as Hwrites.
  { destruct (is_valid_lock this wl) eqn:Hw; simpl.
    - destruct (valid_lock_never_aborts this (acquire_read_lock this) wl value h
                  (is_valid_lock_acquire_read this) Hw)
        as (_&?&_&?&_&?&_&?&?&?&_&?&?).
      done.
    - destruct (invalid_lock_aborts this ReadLock_default wl value h Hn
                  (is_valid_lock_null_read this) Hw)
        as (_&Hf&_&Hb&_&He&_&Hs&Hpu&Hpo&_&Hc&Ha).
      by rewrite Hf, Hb, He, Hs, Hpu, Hpo, Hc, Ha. }
  destruct Hreads as (?&?&?&?&?). destruct Hwrites as (?&?&?&?&?&?&?&?).
  done.
Qed.

(** X2. With NDEBUG defined no member looks at its lock: called with any
    two locks whatever (valid, foreign, null), it does the same thing. *)
Theorem lock_ignored_under_NDEBUG this (rl rl' : ReadLock) (wl wl' : WriteLock)
    (value : T) h :
  NDEBUG = true →
  front_R this rl h = front_R this rl' h
  ∧ back_R this rl h = back_R this rl' h
  ∧ empty_R this rl h = empty_R this rl' h
  ∧ size_R this rl h = size_R this rl' h
  ∧ front_W this wl h = front_W this wl' h
  ∧ back_W this wl h = back_W this wl' h
  ∧ empty_W this wl h = empty_W this wl' h
  ∧ size_W this wl h = size_W this wl' h
  ∧ push this value wl h = push this value wl' h
  ∧ pop this wl h = pop this wl' h
  ∧ front_W this wl h = front_R this rl h
  ∧ back_W this wl h = back_R this rl h.
Proof.
  intros Hn.
  unfold front_R, back_R, empty_R, size_R, front_W, back_W, empty_W, size_W, push, pop.
  by rewrite !guarded_compiled_out.
Qed.

(** X3. The validation compares the associated mutex and nothing else: a
    lock that has been unlocked, and so no longer holds the mutex, is as
    valid as before and every member does with it what it did with the
    held lock, in either build. *)
Theorem unlocked_lock_still_validates this (rl rl' : ReadLock) (wl wl' : WriteLock)
    (value : T) h :
  ReadLock_unlock rl = Some rl' →
  WriteLock_unlock wl = Some wl' →
  (ReadLock_owns_lock rl' = false ∧ WriteLock_owns_lock wl' = false)
  ∧ is_valid_lock this rl' = is_valid_lock this rl
  ∧ is_valid_lock this wl' = is_valid_lock this wl
  ∧ front_R this rl' h = front_R this rl h
  ∧ back_R this rl' h = back_R this rl h
  ∧ empty_R this rl' h = empty_R this rl h
  ∧ size_R this rl' h = size_R this rl h
  ∧ front_W this wl' h = front_W this wl h
  ∧ back_W this wl' h = back_W this wl h
  ∧ push this value wl' h = push this value wl h
  ∧ pop this wl' h = pop this wl h
  ∧ aborted (IterableView_ctor (T:=T) this rl' h)
    = aborted (IterableView_ctor (T:=T) this rl h)
  ∧ aborted (IterableWriteView_ctor (T:=T) this wl' h)
    = aborted (IterableWriteView_ctor (T:=T) this wl h).
Proof.
  intros Hr Hw.
  assert (ReadLock_owns_lock rl' = false ∧ is_valid_lock this rl' = is_valid_lock this rl)
    as [Hro Hrv].
  { unfold ReadLock_unlock in Hr. destruct rl as [[m|] []]; simplify_eq/=; done. }
  assert (WriteLock_owns_lock wl' = false
          ∧ is_valid_lock this wl' = is_valid_lock this wl) as [Hwo Hwv].
  { unfold WriteLock_unlock in Hw. destruct wl as [[m|] []]; simplify_eq/=; done. }
  unfold front_R, back_R, empty_R, size_R, front_W, back_W, push, pop,
    IterableView_ctor, IterableWriteView_ctor.
  rewrite Hrv, Hwv. split_and!; try done.
  - destruct (ASSERT_cases (T:=T) (is_valid_lock this rl) h) as [Hc|Hc].
    + by rewrite !(bind_Returned _ _ h () h).
    + by rewrite !bind_AssertionFailure.
  - destruct (ASSERT_cases (T:=T) (is_valid_lock this wl) h) as [Hc|Hc].
    + by rewrite !(bind_Returned _ _ h () h).
    + by rewrite !bind_AssertionFailure.
Qed.

(** X4. A lock with no associated mutex (default-constructed, or after
    release()) is valid for no queue: in a build that keeps assertions
    every member of every queue aborts on it, also a lock that had been
    acquired from this very queue before it was released. *)
Theorem null_lock_rejected_everywhere this (value : T) h :
  NDEBUG = false →
  is_valid_lock this (ReadLock_release (acquire_read_lock this)) = false
  ∧ is_valid_lock this (WriteLock_release (acquire_write_lock this)) = false
  ∧ is_valid_lock this ReadLock_default = false
  ∧ is_valid_lock this WriteLock_default = false
  ∧ front_R this (ReadLock_release (acquire_read_lock this)) h = AssertionFailure
  ∧ size_R this (ReadLock_release (acquire_read_lock this)) h = AssertionFailure
  ∧ push this value (WriteLock_release (acquire_write_lock this)) h = AssertionFailure
  ∧ pop this (WriteLock_release (acquire_write_lock this)) h = AssertionFailure
  ∧ acquire_iterable_write_view (T:=T) this (WriteLock_release (acquire_write_lock this)) h
    = AssertionFailure.
Proof.
  intros Hn.
  destruct (invalid_lock_aborts this (ReadLock_release (acquire_read_lock this))
              (WriteLock_release (acquire_write_lock this)) value h Hn
              (is_valid_lock_null_read this) (is_valid_lock_null_write this))
    as (Hf&_&_&_&_&_&Hs&_&Hpu&Hpo&_&_&Ha).
  done.
Qed.
End ValidationScope.

(** ** How pushes and pops compose *)

Section Dynamics.
Context {T : Type} `{BuildConfig}.
Implicit Types (h : gmap Addr (list T)) (this : Addr) (d : list T).

Lemma pop_on_empty this lock h :
  h !! this = Some [] → is_valid_lock this lock = true →
  pop (T:=T) this lock h = UndefinedBehaviour.
Proof.
  intros Hd Hv. unfold pop. rewrite (bind_Returned _ _ h () h) by by apply ASSERT_pass.
  apply bind_UndefinedBehaviour. by eapply SuperQueue_read_violated.
Qed.

(** What a returning mutating deque member did to the store. *)
Lemma SuperQueue_write_Returned this (f : list T → option (list T)) h u h' :
  SuperQueue_write this f h = Returned u h' →
  ∃ d d', h !! this = Some d ∧ f d = Some d' ∧ h' = <[this := d']> h.
Proof.
  unfold SuperQueue_write. intros Hw.
  destruct (h !! this) as [d|]; [|done]. destruct (f d) as [d'|] eqn:Hf; [|done].
  simplify_eq. by exists d, d'.
Qed.

Lemma SuperQueue_read_Returned {A} this (f : list T → option A) h a h' :
  SuperQueue_read this f h = Returned a h' → h' = h.
Proof.
  unfold SuperQueue_read. intros Hr.
  destruct (h !! this) as [d|]; [|done]. destruct (f d); [|done]. by simplify_eq.
Qed.

(** A guarded member that returns has run its body on the same store. *)
Lemma guarded_Returned {A} c (m : M T A) h a h' :
  (ASSERT c;; m) h = Returned a h' → m h = Returned a h'.
Proof.
  destruct (ASSERT_cases (T:=T) c h) as [Hc|Hc].
  - by rewrite (bind_Returned _ _ h () h).
  - by rewrite bind_AssertionFailure.
Qed.

Lemma insert_live_frame this d' h d :
  h !! this = Some d →
  (∀ other, other ≠ this → <[this := d']> h !! other = h !! other)
  ∧ dom (<[this := d']> h) = dom h.
Proof.
  intros Hd. split.
  - intros other Hne. by rewrite lookup_insert_ne.
  - by apply dom_insert_lookup_L.
Qed.

(** X5. FIFO from any starting contents: after pushing a batch onto a
    queue that holds [d], k pops (k at most the number of elements now
    queued) return the first k elements of [d] followed by the batch - what
    was there first comes out first - and leave the remaining ones in
    order. *)
Theorem pushes_then_pops this (ps : list (T * WriteLock)) (locks : list WriteLock) h d :
  h !! this = Some d →
  Forall (λ p, is_valid_lock this p.2 = true) ps →
  Forall (λ l, is_valid_lock this l = true) locks →
  length locks ≤ length d + length ps →
  (push_each this ps;; pop_each this locks) h
  = Returned (take (length locks) (d ++ ps.*1))
             (<[this := drop (length locks) (d ++ ps.*1)]> h).
Proof.
  intros Hd Hps Hlocks Hlen.
  rewrite (bind_Returned _ _ h () (<[this := d ++ ps.*1]> h))
    by by apply push_each_valid.
  rewrite (pop_each_valid this locks _ (take (length locks) (d ++ ps.*1))
             (drop (length locks) (d ++ ps.*1))).
  - by rewrite insert_insert_eq.
  - by rewrite lookup_insert_eq, take_drop.
  - rewrite length_take, length_app, length_fmap. lia.
  - done.
Qed.

(** X6. Popping once more than the queue holds is undefined: the pops that
    have an element to take succeed and the next one reaches the empty
    deque, whatever the build. *)
Theorem pop_beyond_last_is_undefined this (locks : list WriteLock) h d :
  h !! this = Some d →
  Forall (λ l, is_valid_lock this l = true) locks →
  length d < length locks →
  pop_each this locks h = UndefinedBehaviour.
Proof.
  intros Hd Hlocks. revert h d Hd.
  induction Hlocks as [|l locks Hl _ IH]; intros h d Hd Hlen; [simpl in Hlen; lia|].
  simpl. destruct d as [|x d].
  - apply bind_UndefinedBehaviour. by apply pop_on_empty.
  - rewrite (bind_Returned _ _ h x (<[this := d]> h)) by by apply pop_valid.
    apply bind_UndefinedBehaviour. apply (IH _ d).
    + by rewrite lookup_insert_eq.
    + simpl in Hlen. lia.
Qed.

(** X7. Whatever lock it is given and in either build, a push or pop that
    returns has changed the sequence of its own queue only: every other
    queue in the store holds what it held, and no queue has appeared or
    disappeared. *)
Theorem mutators_touch_only_their_queue this (value : T) (lock : WriteLock) h h' :
  push this value lock h = Returned () h' ∨ (∃ x, pop this lock h = Returned x h') →
  (∀ other, other ≠ this → h' !! other = h !! other) ∧ dom h' = dom h.
Proof.
  intros [Hpush|[x Hpop]].
  - apply guarded_Returned, SuperQueue_write_Returned in Hpush
      as (d & d' & Hd & _ & ->). by eapply insert_live_frame.
  - apply guarded_Returned in Hpop.
    unfold mbind, M_mbind, M_bind in Hpop.
    destruct (SuperQueue_front this h) as [y h1| |] eqn:Hf; [|done..].
    apply SuperQueue_read_Returned in Hf as ->.
    destruct (SuperQueue_pop_front this h) as [[] h2| |] eqn:Hp; [|done..].
    apply SuperQueue_write_Returned in Hp as (d & d' & Hd & _ & ->).
    unfold mret, M_mret, M_ret in Hpop. simplify_eq. by eapply insert_live_frame.
Qed.

(** X8. The two ends do not disturb each other. On a queue holding
    [x :: d], front after a push is still [x] (and the queue is not empty);
    back after a pop is still the old back, unless the popped element was
    the only one, in which case back has nothing to return and is
    undefined. *)
Theorem push_keeps_front_pop_keeps_back this (lock : WriteLock) (value x y : T) h d :
  h !! this = Some (x :: d) →
  last (x :: d) = Some y →
  is_valid_lock this lock = true →
  (push this value lock;; front_W this lock) h
  = Returned x (<[this := x :: d ++ [value]]> h)
  ∧ (push this value lock;; empty_W this lock) h
    = Returned false (<[this := x :: d ++ [value]]> h)
  ∧ (pop this lock;; back_W this lock) h
    = match d with
      | [] => UndefinedBehaviour
      | _ :: _ => Returned y (<[this := d]> h)
      end.
Proof.
  intros Hd Hy Hv. split_and!.
  - rewrite (bind_Returned _ _ h () (<[this := (x :: d) ++ [value]]> h))
      by by apply push_valid.
    eapply guarded_read_valid; [done | by rewrite lookup_insert_eq | done].
  - rewrite (bind_Returned _ _ h () (<[this := (x :: d) ++ [value]]> h))
      by by apply push_valid.
    eapply guarded_read_valid; [done | by rewrite lookup_insert_eq | done].
  - rewrite (bind_Returned _ _ h x (<[this := d]> h)) by by apply pop_valid.
    destruct d as [|z d].
    + eapply guarded_read_violated; [done | by rewrite lookup_insert_eq | done].
    + eapply guarded_read_valid; [done | by rewrite lookup_insert_eq |].
      unfold deque_back. by rewrite <-Hy, last_cons_cons.
Qed.
End Dynamics.

(** ** Views and the queue they refer to *)

Section ViewsAndQueue.
Context {T : Type} `{BuildConfig}.
Implicit Types (h : gmap Addr (list T)) (this queue : Addr) (d : list T).

Lemma traverse_IterableWriteView_const_valid fuel queue lock h d :
  h !! queue = Some d → is_valid_lock queue lock = true → length d < fuel →
  traverse_IterableWriteView_const fuel queue lock h = Returned (Some d) h.
Proof.
  intros Hd Hv Hfuel. unfold traverse_IterableWriteView_const.
  rewrite (bind_Returned _ _ h (mkIterableWriteView queue lock) h)
    by by apply IterableWriteView_ctor_valid.
  rewrite (bind_Returned _ _ h (mkIterator queue 0) h) by by eapply SuperQueue_begin_live.
  rewrite (bind_Returned _ _ h (mkIterator queue (length d)) h)
    by by eapply SuperQueue_end_live.
  rewrite (for_each_from queue h d) by (done || lia). by rewrite drop_0.
Qed.

Lemma traverse_IterableView_valid fuel queue lock h d :
  h !! queue = Some d → is_valid_lock queue lock = true → length d < fuel →
  traverse_IterableView fuel queue lock h = Returned (Some d) h.
Proof.
  intros Hd Hv Hfuel. unfold traverse_IterableView.
  rewrite (bind_Returned _ _ h (mkIterableView queue lock) h)
    by by apply IterableView_ctor_valid.
  rewrite (bind_Returned _ _ h (mkIterator queue 0) h) by by eapply SuperQueue_begin_live.
  rewrite (bind_Returned _ _ h (mkIterator queue (length d)) h)
    by by eapply SuperQueue_end_live.
  rewrite (for_each_from queue h d) by (done || lia). by rewrite drop_0.
Qed.

(** X9. A view refers to the queue, it does not copy it: a write view
    built before a push and walked after it yields the pushed element too,
    at the end. *)
Theorem view_sees_later_push fuel queue (value : T) (lock : WriteLock) h d :
  h !! queue = Some d →
  is_valid_lock queue lock = true →
  S (length d) < fuel →
  traverse_after_push fuel queue value lock h
  = Returned (Some (d ++ [value])) (<[queue := d ++ [value]]> h).
Proof.
  intros Hd Hv Hfuel. unfold traverse_after_push.
  rewrite (bind_Returned _ _ h (mkIterableWriteView queue lock) h)
    by by apply IterableWriteView_ctor_valid.
  rewrite (bind_Returned _ _ h () (<[queue := d ++ [value]]> h)) by by apply push_valid.
  assert (<[queue := d ++ [value]]> h !! queue = Some (d ++ [value])) as Hd'
    by by rewrite lookup_insert_eq.
  rewrite (bind_Returned _ _ _ (mkIterator queue 0) (<[queue := d ++ [value]]> h))
    by by eapply SuperQueue_begin_live.
  rewrite (bind_Returned _ _ _ (mkIterator queue (length (d ++ [value])))
             (<[queue := d ++ [value]]> h)) by by eapply SuperQueue_end_live.
  rewrite (for_each_from queue _ (d ++ [value])); [by rewrite drop_0 | done | lia |].
  rewrite length_app. simpl. lia.
Qed.

(** X10. The factory member adds nothing to the constructor: for every
    lock, store and build, acquire_iterable_write_view does exactly what
    constructing an IterableWriteView on this queue does; the second
    validation can neither fail nor change anything once the first has
    passed. *)
Theorem acquire_write_view_is_view_constructor this (wl : WriteLock)
    (h : gmap Addr (list T)) :
  acquire_iterable_write_view this wl h = IterableWriteView_ctor this wl h.
Proof.
  unfold acquire_iterable_write_view, IterableWriteView_ctor.
  destruct (ASSERT_cases (T:=T) (is_valid_lock this wl) h) as [Hc|Hc].
  - by rewrite (bind_Returned _ _ h () h).
  - by rewrite !bind_AssertionFailure.
Qed.

(** X11. The observers agree with a walk of the read view under the same
    lock: front returns the first element walked and back the last (and
    neither returns when the walk is empty), size returns the number of
    elements walked, and empty returns true exactly when nothing is
    walked. *)
Theorem observers_agree_with_view fuel queue (lock : ReadLock) h d :
  h !! queue = Some d →
  is_valid_lock queue lock = true →
  length d < fuel →
  ∃ walked,
    traverse_IterableView fuel queue lock h = Returned (Some walked) h
    ∧ value_of (front_R queue lock h) = head walked
    ∧ value_of (back_R queue lock h) = last walked
    ∧ value_of (size_R queue lock h) = Some (length walked)
    ∧ value_of (empty_R queue lock h) = Some (bool_decide (walked = [])).
Proof.
  intros Hd Hv Hfuel. exists d. split; [by apply traverse_IterableView_valid|].
  unfold front_R, back_R, size_R, empty_R,
    SuperQueue_front, SuperQueue_back, SuperQueue_size, SuperQueue_empty.
  rewrite !(guarded_read_outcome _ _ _ _ d) by done.
  unfold deque_front, deque_back, deque_size, deque_empty. split_and!.
  - by destruct (head d).
  - by destruct (last d).
  - done.
  - simpl. f_equal. apply bool_decide_ext. by destruct d.
Qed.

(** X12. Assigning through the write view's mutable iterator at offset
    [i] replaces the element at position [i] and nothing else when [i] is
    before the end, so that a walk afterwards yields the old sequence with
    that one element replaced; at or past the end (assigning through
    end()) it is undefined. *)
Theorem assignment_through_write_view fuel queue (lock : WriteLock) i (value : T) h d :
  h !! queue = Some d →
  is_valid_lock queue lock = true →
  length d < fuel →
  assign_through_view queue lock i value h
  = (if decide (i < length d)
     then Returned () (<[queue := <[i := value]> d]> h)
     else UndefinedBehaviour)
  ∧ (assign_through_view queue lock i value;;
     traverse_IterableWriteView_const fuel queue lock) h
    = (if decide (i < length d)
       then Returned (Some (<[i := value]> d)) (<[queue := <[i := value]> d]> h)
       else UndefinedBehaviour).
Proof.
  intros Hd Hv Hfuel.
  assert (assign_through_view queue lock i value h
          = if decide (i < length d)
            then Returned () (<[queue := <[i := value]> d]> h)
            else UndefinedBehaviour) as Hassign.
  { unfold assign_through_view.
    rewrite (bind_Returned _ _ h (mkIterableWriteView queue lock) h)
      by by apply IterableWriteView_ctor_valid.
    rewrite (bind_Returned _ _ h (mkIterator queue 0) h)
      by by eapply SuperQueue_begin_live.
    unfold Iterator_assign, Iterator_advance, SuperQueue_write, deque_size. simpl.
    rewrite Hd. by destruct (decide (i < length d)). }
  split; [done|]. destruct (decide (i < length d)) as [Hi|Hi].
  - rewrite (bind_Returned _ _ h () (<[queue := <[i := value]> d]> h)) by done.
    apply traverse_IterableWriteView_const_valid;
      [by rewrite lookup_insert_eq | done | by rewrite length_insert].
  - by apply bind_UndefinedBehaviour.
Qed.
End ViewsAndQueue.

(** * Concrete runs *)

(** The scenario of the specification: three pushes under one write lock;
    then front and size under a read lock; then pop, size and front under
    a write lock. *)
Example push_front_pop_scenario :
  let wl := acquire_write_lock 1%N in
  let rl := acquire_read_lock 1%N in
  (@push nat debug_build 1%N 1 wl;; @push nat debug_build 1%N 2 wl;;
   @push nat debug_build 1%N 3 wl;;
   f ← @front_R nat debug_build 1%N rl;
   n ← @size_R nat debug_build 1%N rl;
   p ← @pop nat debug_build 1%N wl;
   n' ← @size_W nat debug_build 1%N wl;
   f' ← @front_W nat debug_build 1%N wl;
   mret (f, n, p, n', f')) one_empty_queue
  = Returned (1, 3, 1, 2, 2) {[ 1%N := [2; 3] ]}.
Proof. vm_compute. reflexivity. Qed.

(** Too small a bound cuts the walk over three elements short; the next
    one is enough. *)
Example traversal_needs_one_test_per_element :
  @traverse_IterableView nat debug_build 3 1%N (acquire_read_lock 1%N) three_elements
  = Returned None three_elements
  ∧ @traverse_IterableView nat debug_build 4 1%N (acquire_read_lock 1%N) three_elements
    = Returned (Some [1; 2; 3]) three_elements.
Proof. split; reflexivity. Qed.

(** C1 at two pushes and two pops on the empty queue at address 1. *)
Lemma fifo_order_witness :
  (@push_each nat debug_build 1%N
     [(7, acquire_write_lock 1%N); (8, acquire_write_lock 1%N)];;
   @pop_each nat debug_build 1%N [acquire_write_lock 1%N; acquire_write_lock 1%N])
    one_empty_queue
  = Returned [7; 8] one_empty_queue.
Proof.
  apply (@fifo_order nat debug_build 1%N
           [(7, acquire_write_lock 1%N); (8, acquire_write_lock 1%N)]
           [acquire_write_lock 1%N; acquire_write_lock 1%N] one_empty_queue).
  - reflexivity.
  - repeat constructor.
  - repeat constructor.
  - reflexivity.
Defined.

(** C5 at the three-element queue. *)
Lemma pop_removes_head_witness :
  @pop nat debug_build 1%N (acquire_write_lock 1%N) three_elements
  = Returned 1 (<[1%N := [2; 3]]> three_elements).
Proof.
  apply (@pop_removes_head nat debug_build 1%N (acquire_write_lock 1%N)
           three_elements 1 [2; 3]); reflexivity.
Defined.

(** C6 at the three-element queue. *)
Lemma push_appends_at_tail_witness :
  @push nat debug_build 1%N 4 (acquire_write_lock 1%N) three_elements
  = Returned () (<[1%N := [1; 2; 3; 4]]> three_elements).
Proof.
  apply (@push_appends_at_tail nat debug_build 1%N 4 (acquire_write_lock 1%N)
           three_elements [1; 2; 3]); reflexivity.
Defined.

(** C9 at the three-element queue. *)
Lemma observers_leave_queue_unchanged_witness :
  @front_R nat debug_build 1%N (acquire_read_lock 1%N) three_elements
  = Returned 1 three_elements.
Proof.
  apply (@observers_leave_queue_unchanged nat debug_build 1%N
           (acquire_read_lock 1%N) (acquire_write_lock 1%N) three_elements [1; 2; 3]);
    reflexivity.
Defined.

(** C7 at the three-element queue. *)
Lemma view_traversal_in_queue_order_witness :
  @traverse_IterableView nat debug_build 4 1%N (acquire_read_lock 1%N) three_elements
  = Returned (Some [1; 2; 3]) three_elements.
Proof.
  apply (@view_traversal_in_queue_order nat debug_build 1%N
           (acquire_read_lock 1%N) (acquire_write_lock 1%N) three_elements [1; 2; 3] 4);
    [reflexivity | reflexivity | reflexivity | simpl; lia].
Defined.

(** C2, the claim as stated, fails on the empty queue at address 1: its
    size is 0, and front, back and pop under the queue's own locks are
    undefined rather than a signalled condition. *)
Lemma empty_queue_access_not_signalled :
  @size_R nat debug_build 1%N (acquire_read_lock 1%N) one_empty_queue
  = Returned 0 one_empty_queue
  ∧ well_defined
      (@front_R nat debug_build 1%N (acquire_read_lock 1%N) one_empty_queue) = false
  ∧ well_defined
      (@back_R nat debug_build 1%N (acquire_read_lock 1%N) one_empty_queue) = false
  ∧ well_defined
      (@pop nat debug_build 1%N (acquire_write_lock 1%N) one_empty_queue) = false.
Proof. repeat split; reflexivity. Qed.

(** C2 as amended, at the same queue. *)
Lemma empty_queue_access_is_undefined_witness :
  @pop nat debug_build 1%N (acquire_write_lock 1%N) one_empty_queue = UndefinedBehaviour.
Proof.
  apply (@empty_queue_access_is_undefined nat debug_build 1%N
           (acquire_read_lock 1%N) (acquire_write_lock 1%N) one_empty_queue);
    reflexivity.
Defined.

(** C3, the claim as stated, fails in a build with NDEBUG defined: locks
    acquired from queue A (address 1) are not valid for queue B (address
    2), yet front reads B's head and push appends to B. *)
Lemma cross_instance_token_unchecked_under_NDEBUG :
  is_valid_lock 2%N (acquire_read_lock 1%N) = false
  ∧ is_valid_lock 2%N (acquire_write_lock 1%N) = false
  ∧ @front_R nat release_build 2%N (acquire_read_lock 1%N) two_queues
    = Returned 20 two_queues
  ∧ @push nat release_build 2%N 99 (acquire_write_lock 1%N) two_queues
    = Returned () (<[2%N := [20; 30; 99]]> two_queues).
Proof. repeat split; vm_compute; reflexivity. Qed.

(** C3 as amended, at the same two queues in a build that keeps assertions. *)
Lemma cross_instance_token_aborts_witness :
  @push nat debug_build 2%N 99 (acquire_write_lock 1%N) two_queues = AssertionFailure.
Proof.
  apply (@cross_instance_token_aborts nat debug_build 1%N 2%N 99 two_queues);
    [reflexivity | discriminate].
Defined.

(** C9, the claim as stated, fails on the empty queue at address 1: front
    and back under the queue's own locks are undefined there, so there is
    no state after the call to equal the state before. *)
Lemma observer_on_empty_queue_leaves_no_state :
  heap_after (@front_R nat debug_build 1%N (acquire_read_lock 1%N) one_empty_queue)
  = None
  ∧ heap_after (@back_R nat debug_build 1%N (acquire_read_lock 1%N) one_empty_queue)
    = None
  ∧ heap_after (@front_W nat debug_build 1%N (acquire_write_lock 1%N) one_empty_queue)
    = None
  ∧ heap_after (@back_W nat debug_build 1%N (acquire_write_lock 1%N) one_empty_queue)
    = None
  ∧ well_defined
      (@front_R nat debug_build 1%N (acquire_read_lock 1%N) one_empty_queue) = false.
Proof. repeat split; reflexivity. Qed.

(** X1 at the two queues: a lock of queue A aborts on queue B, queue B's
    own lock does not. *)
Lemma abort_exactly_on_invalid_lock_witness :
  aborted (@push nat debug_build 2%N 99 (acquire_write_lock 1%N) two_queues)
  = negb (is_valid_lock 2%N (acquire_write_lock 1%N)).
Proof.
  apply (@abort_exactly_on_invalid_lock nat debug_build 2%N
           (acquire_read_lock 2%N) (acquire_write_lock 1%N) 99 two_queues).
  reflexivity.
Defined.

(** X2 at the two queues: queue B read with its own lock and with a null
    lock. *)
Lemma lock_ignored_under_NDEBUG_witness :
  @front_R nat release_build 2%N (acquire_read_lock 2%N) two_queues
  = @front_R nat release_build 2%N ReadLock_default two_queues.
Proof.
  apply (@lock_ignored_under_NDEBUG nat release_build 2%N
           (acquire_read_lock 2%N) ReadLock_default
           (acquire_write_lock 2%N) WriteLock_default 99 two_queues).
  reflexivity.
Defined.

(** X3 at the three-element queue, with its own locks unlocked. *)
Lemma unlocked_lock_still_validates_witness :
  @pop nat debug_build 1%N (mkWriteLock (Some 1%N) false) three_elements
  = @pop nat debug_build 1%N (acquire_write_lock 1%N) three_elements.
Proof.
  apply (@unlocked_lock_still_validates nat debug_build 1%N
           (acquire_read_lock 1%N) (mkReadLock (Some 1%N) false)
           (acquire_write_lock 1%N) (mkWriteLock (Some 1%N) false) 0 three_elements);
    reflexivity.
Defined.

(** X4 at the three-element queue. *)
Lemma null_lock_rejected_everywhere_witness :
  @pop nat debug_build 1%N (WriteLock_release (acquire_write_lock 1%N)) three_elements
  = AssertionFailure.
Proof.
  apply (@null_lock_rejected_everywhere nat debug_build 1%N 0 three_elements).
  reflexivity.
Defined.

(** X5 at the three-element queue: two pushes, then four pops. *)
Lemma pushes_then_pops_witness :
  (@push_each nat debug_build 1%N
     [(4, acquire_write_lock 1%N); (5, acquire_write_lock 1%N)];;
   @pop_each nat debug_build 1%N
     [acquire_write_lock 1%N; acquire_write_lock 1%N;
      acquire_write_lock 1%N; acquire_write_lock 1%N]) three_elements
  = Returned [1; 2; 3; 4] (<[1%N := [5]]> three_elements).
Proof.
  apply (@pushes_then_pops nat debug_build 1%N
           [(4, acquire_write_lock 1%N); (5, acquire_write_lock 1%N)]
           [acquire_write_lock 1%N; acquire_write_lock 1%N;
            acquire_write_lock 1%N; acquire_write_lock 1%N] three_elements [1; 2; 3]).
  - reflexivity.
  - repeat constructor.
  - repeat constructor.
  - simpl; lia.
Defined.

(** X6 at the queue holding one element: two pops. *)
Lemma pop_beyond_last_is_undefined_witness :
  @pop_each nat debug_build 1%N [acquire_write_lock 1%N; acquire_write_lock 1%N]
    two_queues
  = UndefinedBehaviour.
Proof.
  apply (@pop_beyond_last_is_undefined nat debug_build 1%N
           [acquire_write_lock 1%N; acquire_write_lock 1%N] two_queues [10]).
  - reflexivity.
  - repeat constructor.
  - simpl; lia.
Defined.

(** X7 at the two queues: a push to queue B. *)
Lemma mutators_touch_only_their_queue_witness :
  (∀ other, other ≠ 2%N →
     <[2%N := [20; 30; 99]]> two_queues !! other = two_queues !! other)
  ∧ dom (<[2%N := [20; 30; 99]]> two_queues) = dom two_queues.
Proof.
  apply (@mutators_touch_only_their_queue nat debug_build 2%N 99
           (acquire_write_lock 2%N) two_queues (<[2%N := [20; 30; 99]]> two_queues)).
  left. vm_compute. reflexivity.
Defined.

(** X8 at the three-element queue. *)
Lemma push_keeps_front_pop_keeps_back_witness :
  (@pop nat debug_build 1%N (acquire_write_lock 1%N);;
   @back_W nat debug_build 1%N (acquire_write_lock 1%N)) three_elements
  = Returned 3 (<[1%N := [2; 3]]> three_elements).
Proof.
  apply (@push_keeps_front_pop_keeps_back nat debug_build 1%N
           (acquire_write_lock 1%N) 0 1 3 three_elements [2; 3]); reflexivity.
Defined.

(** X9 at the three-element queue. *)
Lemma view_sees_later_push_witness :
  @traverse_after_push nat debug_build 5 1%N 4 (acquire_write_lock 1%N) three_elements
  = Returned (Some [1; 2; 3; 4]) (<[1%N := [1; 2; 3; 4]]> three_elements).
Proof.
  apply (@view_sees_later_push nat debug_build 5 1%N 4 (acquire_write_lock 1%N)
           three_elements [1; 2; 3]); [reflexivity | reflexivity | simpl; lia].
Defined.

(** X11 at the three-element queue. *)
Lemma observers_agree_with_view_witness :
  ∃ walked,
    @traverse_IterableView nat debug_build 4 1%N (acquire_read_lock 1%N) three_elements
    = Returned (Some walked) three_elements
    ∧ value_of (@front_R nat debug_build 1%N (acquire_read_lock 1%N) three_elements)
      = head walked
    ∧ value_of (@back_R nat debug_build 1%N (acquire_read_lock 1%N) three_elements)
      = last walked
    ∧ value_of (@size_R nat debug_build 1%N (acquire_read_lock 1%N) three_elements)
      = Some (length walked)
    ∧ value_of (@empty_R nat debug_build 1%N (acquire_read_lock 1%N) three_elements)
      = Some (bool_decide (walked = [])).
Proof.
  apply (@observers_agree_with_view nat debug_build 4 1%N (acquire_read_lock 1%N)
           three_elements [1; 2; 3]); [reflexivity | reflexivity | simpl; lia].
Defined.

(** X12 at the three-element queue: the middle element is replaced. *)
Lemma assignment_through_write_view_witness :
  @assign_through_view nat debug_build 1%N (acquire_write_lock 1%N) 1 7 three_elements
  = (if decide (1 < length [1; 2; 3])
     then Returned () (<[1%N := <[1 := 7]> [1; 2; 3]]> three_elements)
     else UndefinedBehaviour).
Proof.
  apply (@assignment_through_write_view nat debug_build 4 1%N (acquire_write_lock 1%N)
           1 7 three_elements [1; 2; 3]); [reflexivity | reflexivity | simpl; lia].
Defined.
